(** * napa::runtime — the C++ wrapper of the napa runtime C API

    A shallow embedding of [inc/napa-runtime.h]: the [Response] value type,
    the [Container] class and the helpers of namespace [internal]
    ([AsyncCompletionContext], [CompletionHandler],
    [ConvertToNapaRuntimeArgs]).

    The engine behind the C API ([napa_container_run], ...) is not part of
    the header; it is an interface ([NapaRuntimeC]) the development is
    parametric in. *)

From Stdlib Require Import ZArith List Strings.Byte String.
From stdpp Require Import base option list gmap.

Local Open Scope Z_scope.

(** ** Pointers and text *)

(** A machine address; [NULL] is the null pointer. *)
Definition addr := Z.
Definition NULL : addr := 0.

(** [std::string] held by value: the owned sequence of its bytes. *)
Definition std_string := list byte.

(** A [std::string] object seen through [const std::string&]: the object
    lives in the caller's storage, [data()] is the address of its character
    buffer, [size()] the number of bytes it holds. *)
Record string_object := StringObject {
  str_data  : addr;
  str_bytes : std_string
}.

Definition str_size (s : string_object) : nat := length (str_bytes s).

(** Modelled from the spec: [napa_string_ref] is declared in
    napa-runtime-c.h, which is not part of the sources; the spec describes it
    as "a non-owning view (pointer + length) over caller-owned text". *)
Record napa_string_ref := StringRef {
  ref_data : addr;
  ref_size : nat
}.

(** Byte-addressed storage that views point into. *)
Definition Memory := addr → byte.

Definition read_bytes (m : Memory) (p : addr) (n : nat) : list byte :=
  map (λ i, m (p + Z.of_nat i)) (seq 0 n).

(** A string object is stored in [m] when its buffer holds its bytes. *)
Definition stored (m : Memory) (s : string_object) : Prop :=
  read_bytes m (str_data s) (str_size s) = str_bytes s.

(** An address lies in the range a view covers. *)
Definition in_view (r : napa_string_ref) (a : addr) : Prop :=
  ref_data r ≤ a < ref_data r + Z.of_nat (ref_size r).

(** Modelled from the spec: the macro [STD_STRING_TO_NAPA_STRING_REF] comes
    from napa-runtime-c.h; per the spec a view borrows its source string's
    storage (pointer plus length). *)
Definition STD_STRING_TO_NAPA_STRING_REF (str : string_object) : napa_string_ref :=
  {| ref_data := str_data str; ref_size := str_size str |}.

(** Modelled from the spec: the macro [NAPA_STRING_REF_TO_STD_STRING] comes
    from napa-runtime-c.h; per the spec the view's data is copied into
    independently owned text. *)
Definition NAPA_STRING_REF_TO_STD_STRING (m : Memory) (r : napa_string_ref) : std_string :=
  read_bytes m (ref_data r) (ref_size r).

(** ** Response codes and responses *)

(** Modelled from the spec: [NapaResponseCode] (alias [napa_response_code])
    is declared in napa-runtime-c.h; the spec lists the closed enumeration
    Undefined, Success, Timeout, LoadFailure, ExecutionFailure,
    InitializationFailure. *)
Inductive NapaResponseCode : Set :=
  | NAPA_RESPONSE_UNDEFINED
  | NAPA_RESPONSE_SUCCESS
  | NAPA_RESPONSE_TIMEOUT
  | NAPA_RESPONSE_LOAD_FAILURE
  | NAPA_RESPONSE_EXECUTION_FAILURE
  | NAPA_RESPONSE_INITIALIZATION_FAILURE.

#[global] Instance NapaResponseCode_eq_dec : EqDecision NapaResponseCode.
Proof. solve_decision. Defined.

(** Modelled from the spec: the engine-native result of a run, declared in
    napa-runtime-c.h; its text fields are views into engine-owned storage. *)
Record napa_container_response := NativeResponse {
  response_code         : NapaResponseCode;
  response_error        : napa_string_ref;
  response_return_value : napa_string_ref
}.

(** [struct Response]. *)
Record Response := MkResponse {
  code        : NapaResponseCode;
  error       : std_string;
  returnValue : std_string
}.

(** [Response::Response()]. *)
Definition Response_default : Response :=
  {| code := NAPA_RESPONSE_UNDEFINED; error := []; returnValue := [] |}.

(** [Response::Response(napa_container_response)]; [m] is the storage the
    engine's views point into at the time of the conversion. *)
Definition Response_of (m : Memory) (response : napa_container_response) : Response :=
  {| code := response_code response;
     error := NAPA_STRING_REF_TO_STD_STRING m (response_error response);
     returnValue := NAPA_STRING_REF_TO_STD_STRING m (response_return_value response) |}.

(** The [Response] values the wrapper produces: the default-constructed one,
    and the conversion of an engine-native response. The wrapper takes the
    engine's code and error text as they come, so whether they agree is the
    engine's contract: [produced_from_engine] is about native responses
    whose error view is empty exactly when their code is Success. *)
Definition error_view_agrees_with_code (r : napa_container_response) : Prop :=
  ref_size (response_error r) = 0%nat ↔ response_code r = NAPA_RESPONSE_SUCCESS.

Inductive Response_produced : Response → Prop :=
  | produced_default : Response_produced Response_default
  | produced_from_engine (m : Memory) (r : napa_container_response) :
      error_view_agrees_with_code r → Response_produced (Response_of m r).

(** ** [std::vector] with its capacity

    The element sequence and the capacity are the vector's data. The two
    counters are ghost state for cost statements: [vec_constructed] counts the
    elements constructed in place by [emplace_back], [vec_relocated] the
    elements moved to a new buffer when the capacity changes. *)
Record vector (A : Type) := Vector {
  vec_elems       : list A;
  vec_capacity    : nat;
  vec_constructed : nat;
  vec_relocated   : nat
}.
Arguments Vector {A} _ _ _ _.
Arguments vec_elems {A} _.
Arguments vec_capacity {A} _.
Arguments vec_constructed {A} _.
Arguments vec_relocated {A} _.

Definition vec_size {A} (v : vector A) : nat := length (vec_elems v).

(** [std::vector<T> res;] *)
Definition vector_empty {A} : vector A :=
  {| vec_elems := []; vec_capacity := 0; vec_constructed := 0; vec_relocated := 0 |}.

(** Capacity chosen when a full vector grows (doubling, as libstdc++ does;
    the standard leaves the policy open). *)
Definition grow (c : nat) : nat := Nat.max 1 (2 * c).

(** [res.reserve(n)]: a new buffer only when the capacity is too small. *)
Definition reserve {A} (n : nat) (v : vector A) : vector A :=
  if (vec_capacity v <? n)%nat
  then {| vec_elems := vec_elems v;
          vec_capacity := n;
          vec_constructed := vec_constructed v;
          vec_relocated := vec_relocated v + vec_size v |}
  else v.

(** [res.emplace_back(x)]: constructs one element at the end; a full vector
    first moves its elements to a larger buffer. *)
Definition emplace_back {A} (v : vector A) (x : A) : vector A :=
  if (vec_size v <? vec_capacity v)%nat
  then {| vec_elems := vec_elems v ++ [x];
          vec_capacity := vec_capacity v;
          vec_constructed := S (vec_constructed v);
          vec_relocated := vec_relocated v |}
  else {| vec_elems := vec_elems v ++ [x];
          vec_capacity := grow (vec_capacity v);
          vec_constructed := S (vec_constructed v);
          vec_relocated := vec_relocated v + vec_size v |}.

(** [internal::ConvertToNapaRuntimeArgs]: the range-for loop is a left fold
    over [args]. *)
Definition ConvertToNapaRuntimeArgs (args : list string_object) : vector napa_string_ref :=
  let res := vector_empty in
  let res := reserve (length args) res in
  fold_left (λ res arg, emplace_back res (STD_STRING_TO_NAPA_STRING_REF arg)) args res.

(** ** Completion contexts *)

(** [internal::AsyncCompletionContext<CallbackType>]: the user callback is
    its only member; the struct can be neither copied nor moved. *)
Record AsyncCompletionContext (CallbackType : Type) := MkContext {
  callback : CallbackType
}.
Arguments MkContext {CallbackType} _.
Arguments callback {CallbackType} _.

(** ** The C API boundary *)

(** [napa_container_handle]: an opaque pointer the engine hands out. *)
Definition napa_container_handle := addr.

(** [uint32_t]; the wrapper never computes with it. *)
Definition uint32_t := Z.

(** The two instantiations of the template [internal::CompletionHandler]
    whose addresses the wrapper passes to the engine: the one for
    [<LoadCallback, NapaResponseCode>] ([Load] spells the response type
    [napa_response_code], the C name of the same enumeration) and the one
    for [<RunCallback, napa_container_response>]. *)
Inductive completion_handler : Set :=
  | CompletionHandler_Load
  | CompletionHandler_Run.

(** Modelled from the spec: the functions of the C API are declared in
    napa-runtime-c.h, which is not part of the sources. A call across the
    boundary has one constructor per function the wrapper uses, with the
    arguments the wrapper passes, in the order it passes them. *)
Inductive Call : Type :=
  | napa_initialize (settings : napa_string_ref)
  | napa_initialize_from_console (argc : Z) (argv : addr)
  | napa_shutdown
  | napa_container_create
  | napa_container_init (handle : napa_container_handle) (settings : napa_string_ref)
  | napa_container_release (handle : napa_container_handle)
  | napa_container_set_global_value
      (handle : napa_container_handle) (key : napa_string_ref) (value : addr)
  | napa_container_load_file
      (handle : napa_container_handle) (file : napa_string_ref)
      (callback : completion_handler) (context : addr)
  | napa_container_load_file_sync (handle : napa_container_handle) (file : napa_string_ref)
  | napa_container_load
      (handle : napa_container_handle) (source : napa_string_ref)
      (callback : completion_handler) (context : addr)
  | napa_container_load_sync (handle : napa_container_handle) (source : napa_string_ref)
  | napa_container_run
      (handle : napa_container_handle) (func : napa_string_ref)
      (argc : nat) (argv : addr)
      (callback : completion_handler) (context : addr) (timeout : uint32_t)
  | napa_container_run_sync
      (handle : napa_container_handle) (func : napa_string_ref)
      (argc : nat) (argv : addr) (timeout : uint32_t).

Section Runtime.

(** The targets held by the [std::function] objects [LoadCallback] and
    [RunCallback]. A callback is identified by its target; what a target
    does when invoked is the user's business, the model records that it
    was invoked and with which argument. A [std::function] without a
    target is not a callback and has no counterpart here. *)
Context {LoadCallback RunCallback : Type}.

(** ** The free store *)

(** Objects the wrapper creates on the free store: the completion contexts
    made by [new internal::AsyncCompletionContext<...>] and the element
    buffer of a [std::vector<napa_string_ref>]. *)
Inductive Block : Type :=
  | LoadContext (object : AsyncCompletionContext LoadCallback)
  | RunContext (object : AsyncCompletionContext RunCallback)
  | ViewArray (views : list napa_string_ref).

(** The free store maps the addresses in use to the objects at them. *)
Local Abbreviation Heap := (gmap addr Block).

(** An invocation of a user callback. *)
Inductive Invocation : Type :=
  | invoke_load (callback : LoadCallback) (arg : NapaResponseCode)
  | invoke_run (callback : RunCallback) (arg : Response).

(** Modelled from the spec: the engine, as far as the wrapper can tell.
    For every call it has a next state and a result: a response code (the
    synchronous loads, [napa_container_set_global_value], the global
    functions, and [napa_container_init], which per the spec can fail with
    an initialization failure), a handle ([napa_container_create]) or a
    native response ([napa_container_run_sync]). The engine shares the
    address space, so it is given the free store as it is at the time of
    the call; [engine_memory] is the storage its own views point into. *)
Class NapaRuntimeC (E : Type) := {
  engine_next     : Call → Heap → E → E;
  engine_code     : Call → Heap → E → NapaResponseCode;
  engine_handle   : Call → Heap → E → napa_container_handle;
  engine_response : Call → Heap → E → napa_container_response;
  engine_memory   : E → Memory
}.

Context {E : Type} `{!NapaRuntimeC E}.

(** The state of the process: the free store, the engine, and two
    histories kept for the statements below, the calls made across the
    boundary and the callback invocations, both oldest first. The
    functions below are the steps of the process; steps of the caller's
    thread and of the engine's threads are taken one after the other. *)
Record State := MkState {
  heap    : Heap;
  engine  : E;
  calls   : list Call;
  invoked : list Invocation
}.

Definition set_heap (h : Heap) (s : State) : State :=
  {| heap := h; engine := engine s; calls := calls s; invoked := invoked s |}.

(** [new]: an address that is not null and not in use. *)
Definition new_address (h : Heap) : addr := fresh ({[NULL]} ∪ dom h).

Definition new (b : Block) (s : State) : addr * State :=
  let p := new_address (heap s) in
  (p, set_heap (<[p := b]> (heap s)) s).

(** [delete]. *)
Definition delete_ (p : addr) (s : State) : State :=
  set_heap (delete p (heap s)) s.

(** Performing a call: the engine moves on and the call is recorded. *)
Definition perform (c : Call) (s : State) : State :=
  {| heap := heap s;
     engine := engine_next c (heap s) (engine s);
     calls := calls s ++ [c];
     invoked := invoked s |}.

Definition call_void (c : Call) (s : State) : State := perform c s.

Definition call_code (c : Call) (s : State) : NapaResponseCode * State :=
  (engine_code c (heap s) (engine s), perform c s).

Definition call_handle (c : Call) (s : State) : napa_container_handle * State :=
  (engine_handle c (heap s) (engine s), perform c s).

Definition call_response (c : Call) (s : State) : napa_container_response * State :=
  (engine_response c (heap s) (engine s), perform c s).

(** Invoking the target of a callback. *)
Definition record_invocation (i : Invocation) (s : State) : State :=
  {| heap := heap s; engine := engine s; calls := calls s;
     invoked := invoked s ++ [i] |}.

(** ** Global runtime functions *)

(** [Initialize]. *)
Definition Initialize (settings : string_object) (s : State) : NapaResponseCode * State :=
  call_code (napa_initialize (STD_STRING_TO_NAPA_STRING_REF settings)) s.

(** [InitializeFromConsole]. *)
Definition InitializeFromConsole (argc : Z) (argv : addr) (s : State)
  : NapaResponseCode * State :=
  call_code (napa_initialize_from_console argc argv) s.

(** [Shutdown]. *)
Definition Shutdown (s : State) : NapaResponseCode * State :=
  call_code napa_shutdown s.

(** ** namespace internal *)

(** The two functions below are the [reinterpret_cast] of the pointee of a
    [void*] to one of the two context types: it is only defined on an object
    of that very type. *)
Definition as_load_context (b : Block) : option (AsyncCompletionContext LoadCallback) :=
  match b with LoadContext object => Some object | _ => None end.

Definition as_run_context (b : Block) : option (AsyncCompletionContext RunCallback) :=
  match b with RunContext object => Some object | _ => None end.

(** [callback(response)] for a [LoadCallback]. *)
Definition call_LoadCallback (callback : LoadCallback) (response : NapaResponseCode)
    (s : State) : State :=
  record_invocation (invoke_load callback response) s.

(** [callback(response)] for a [RunCallback]: the parameter has type
    [Response], so the [napa_container_response] is first converted by
    [Response::Response(napa_container_response)]. *)
Definition call_RunCallback (callback : RunCallback) (response : napa_container_response)
    (s : State) : State :=
  record_invocation
    (invoke_run callback (Response_of (engine_memory (engine s)) response)) s.

(** [internal::CompletionHandler<CallbackType, ResponseType>]: takes
    ownership of the context ([std::unique_ptr]), calls the callback, and
    deletes the context when the [unique_ptr] goes out of scope. No result
    ([None]) where the behaviour is undefined: [context] does not point to
    a live context of the expected type. *)
Definition CompletionHandler {CallbackType ResponseType : Type}
    (cast : Block → option (AsyncCompletionContext CallbackType))
    (call : CallbackType → ResponseType → State → State)
    (response : ResponseType) (context : addr) (s : State) : option State :=
  match heap s !! context with
  | None => None
  | Some b =>
      match cast b with
      | None => None
      | Some completionContext =>
          let s := call (callback completionContext) response s in
          Some (delete_ context s)
      end
  end.

Definition CompletionHandler_LoadCallback :=
  CompletionHandler as_load_context call_LoadCallback.

Definition CompletionHandler_RunCallback :=
  CompletionHandler as_run_context call_RunCallback.

(** The element buffer of a vector: none (a null [data()]) while the
    capacity is zero, otherwise a block of the free store. *)
Definition vector_data (v : vector napa_string_ref) (s : State) : addr * State :=
  if decide (vec_capacity v = 0%nat) then (NULL, s)
  else new (ViewArray (vec_elems v)) s.

(** [~vector()]: releases the element buffer, if there is one. *)
Definition vector_destroy (data : addr) (s : State) : State :=
  if decide (data = NULL) then s else delete_ data s.

(** ** class Container *)

Record Container := MkContainer {
  _handle : napa_container_handle
}.

(** [Container::Container(const std::string&)]. *)
Definition Container_Container (settings : string_object) (s : State)
  : Container * State :=
  let '(handle, s) := call_handle napa_container_create s in
  let '(_, s) :=
    call_code (napa_container_init handle (STD_STRING_TO_NAPA_STRING_REF settings)) s in
  ({| _handle := handle |}, s).

(** The implicitly-declared copy constructor: the class declares no copy
    constructor, no copy assignment and no move operation, so the compiler
    generates a memberwise copy. *)
Definition Container_copy (other : Container) : Container :=
  {| _handle := _handle other |}.

(** [Container::~Container]. *)
Definition Container_destroy (this : Container) (s : State) : State :=
  call_void (napa_container_release (_handle this)) s.

(** [Container::SetGlobalValue]. *)
Definition Container_SetGlobalValue (this : Container) (key : string_object)
    (value : addr) (s : State) : NapaResponseCode * State :=
  call_code
    (napa_container_set_global_value
       (_handle this) (STD_STRING_TO_NAPA_STRING_REF key) value) s.

(** [Container::LoadFile]. *)
Definition Container_LoadFile (this : Container) (file : string_object)
    (callback : LoadCallback) (s : State) : State :=
  let '(context, s) := new (LoadContext (MkContext callback)) s in
  call_void
    (napa_container_load_file
       (_handle this) (STD_STRING_TO_NAPA_STRING_REF file)
       CompletionHandler_Load context) s.

(** [Container::LoadFileSync]. *)
Definition Container_LoadFileSync (this : Container) (file : string_object)
    (s : State) : NapaResponseCode * State :=
  call_code
    (napa_container_load_file_sync
       (_handle this) (STD_STRING_TO_NAPA_STRING_REF file)) s.

(** [Container::Load]. *)
Definition Container_Load (this : Container) (source : string_object)
    (callback : LoadCallback) (s : State) : State :=
  let '(context, s) := new (LoadContext (MkContext callback)) s in
  call_void
    (napa_container_load
       (_handle this) (STD_STRING_TO_NAPA_STRING_REF source)
       CompletionHandler_Load context) s.

(** [Container::LoadSync]. *)
Definition Container_LoadSync (this : Container) (source : string_object)
    (s : State) : NapaResponseCode * State :=
  call_code
    (napa_container_load_sync
       (_handle this) (STD_STRING_TO_NAPA_STRING_REF source)) s.

(** [Container::Run]. [argv] is a local of the function: its buffer is
    released when the function returns. *)
Definition Container_Run (this : Container) (func : string_object)
    (args : list string_object) (callback : RunCallback) (timeout : uint32_t)
    (s : State) : State :=
  let argv := ConvertToNapaRuntimeArgs args in
  let '(argv_data, s) := vector_data argv s in
  let '(context, s) := new (RunContext (MkContext callback)) s in
  let s :=
    call_void
      (napa_container_run
         (_handle this) (STD_STRING_TO_NAPA_STRING_REF func)
         (vec_size argv) argv_data
         CompletionHandler_Run context timeout) s in
  vector_destroy argv_data s.

(** [Container::RunSync]. *)
Definition Container_RunSync (this : Container) (func : string_object)
    (args : list string_object) (timeout : uint32_t)
    (s : State) : Response * State :=
  let argv := ConvertToNapaRuntimeArgs args in
  let '(argv_data, s) := vector_data argv s in
  let '(response, s) :=
    call_response
      (napa_container_run_sync
         (_handle this) (STD_STRING_TO_NAPA_STRING_REF func)
         (vec_size argv) argv_data timeout) s in
  let result := Response_of (engine_memory (engine s)) response in
  (result, vector_destroy argv_data s).

(** Where [Container::Run] and [Container::RunSync] find the buffer of
    [argv] when called with free store [h], and the free store with that
    buffer in it: no buffer for an empty argument list, otherwise a fresh
    block holding one view per argument. *)
Definition argv_address (args : list string_object) (h : Heap) : addr :=
  match args with
  | [] => NULL
  | _ :: _ => new_address h
  end.

Definition argv_store (args : list string_object) (h : Heap) : Heap :=
  match args with
  | [] => h
  | _ :: _ => <[new_address h := ViewArray (map STD_STRING_TO_NAPA_STRING_REF args)]> h
  end.

(** ** Asynchronous submissions and their completion *)

(** The three asynchronous entry points with their arguments. *)
Inductive Submission : Type :=
  | submit_LoadFile (this : Container) (file : string_object) (callback : LoadCallback)
  | submit_Load (this : Container) (source : string_object) (callback : LoadCallback)
  | submit_Run (this : Container) (func : string_object) (args : list string_object)
      (callback : RunCallback) (timeout : uint32_t).

Definition submit (a : Submission) (s : State) : State :=
  match a with
  | submit_LoadFile this file callback => Container_LoadFile this file callback s
  | submit_Load this source callback => Container_Load this source callback s
  | submit_Run this func args callback timeout =>
      Container_Run this func args callback timeout s
  end.

(** The completion handler a submission passes to the engine. *)
Definition handler_of (a : Submission) : completion_handler :=
  match a with
  | submit_LoadFile _ _ _ | submit_Load _ _ _ => CompletionHandler_Load
  | submit_Run _ _ _ _ _ => CompletionHandler_Run
  end.

(** The completion context a submission creates. *)
Definition context_block (a : Submission) : Block :=
  match a with
  | submit_LoadFile _ _ callback | submit_Load _ _ callback => LoadContext (MkContext callback)
  | submit_Run _ _ _ callback _ => RunContext (MkContext callback)
  end.

(** The address [new] gives the completion context of a submission made in
    state [s]; [Container::Run] has created the buffer of [argv] before. *)
Definition submitted_context (a : Submission) (s : State) : addr :=
  match a with
  | submit_LoadFile _ _ _ | submit_Load _ _ _ => new_address (heap s)
  | submit_Run _ _ args _ _ =>
      new_address (heap (vector_data (ConvertToNapaRuntimeArgs args) s).2)
  end.

(** The handler and the context pointer an asynchronous call hands to the
    engine. *)
Definition completion_of_call (c : Call) : option (completion_handler * addr) :=
  match c with
  | napa_container_load_file _ _ callback context
  | napa_container_load _ _ callback context
  | napa_container_run _ _ _ _ callback context _ => Some (callback, context)
  | _ => None
  end.

(** The first parameter of a completion handler: a response code for the
    load handler, an engine-native response for the run handler. *)
Definition handler_response (h : completion_handler) : Type :=
  match h with
  | CompletionHandler_Load => NapaResponseCode
  | CompletionHandler_Run => napa_container_response
  end.

(** The engine signalling completion: it calls the function pointer it was
    given with a response and a context pointer. *)
Definition signal_completion (h : completion_handler)
  : handler_response h → addr → State → option State :=
  match h with
  | CompletionHandler_Load => CompletionHandler_LoadCallback
  | CompletionHandler_Run => CompletionHandler_RunCallback
  end.

(** The invocation of the callback of [a] with the response converted to the
    callback's parameter type: a load callback takes the code as it is, a run
    callback takes the [Response] converted from the native response while
    the engine's storage is [m]. *)
Definition own_invocation (a : Submission) (m : Memory)
  : handler_response (handler_of a) → Invocation :=
  match a with
  | submit_LoadFile _ _ callback | submit_Load _ _ callback =>
      λ response, invoke_load callback response
  | submit_Run _ _ _ callback _ =>
      λ response, invoke_run callback (Response_of m response)
  end.

(** The completion context of [a] is live at [context]: submitted and not
    yet completed. *)
Definition outstanding (s : State) (context : addr) (a : Submission) : Prop :=
  heap s !! context = Some (context_block a).

(** ** Operations, steps and histories *)

(** One use of the header by the caller: a global function, the
    construction or destruction of a [Container], or one of its methods. *)
Inductive Operation : Type :=
  | op_Initialize (settings : string_object)
  | op_InitializeFromConsole (argc : Z) (argv : addr)
  | op_Shutdown
  | op_Container (settings : string_object)
  | op_destroy (this : Container)
  | op_SetGlobalValue (this : Container) (key : string_object) (value : addr)
  | op_LoadFileSync (this : Container) (file : string_object)
  | op_LoadSync (this : Container) (source : string_object)
  | op_RunSync (this : Container) (func : string_object)
      (args : list string_object) (timeout : uint32_t)
  | op_submit (a : Submission).

(** The state after an operation; what the operation returns is left to
    the caller. *)
Definition operation_effect (o : Operation) (s : State) : State :=
  match o with
  | op_Initialize settings => (Initialize settings s).2
  | op_InitializeFromConsole argc argv => (InitializeFromConsole argc argv s).2
  | op_Shutdown => (Shutdown s).2
  | op_Container settings => (Container_Container settings s).2
  | op_destroy this => Container_destroy this s
  | op_SetGlobalValue this key value => (Container_SetGlobalValue this key value s).2
  | op_LoadFileSync this file => (Container_LoadFileSync this file s).2
  | op_LoadSync this source => (Container_LoadSync this source s).2
  | op_RunSync this func args timeout => (Container_RunSync this func args timeout s).2
  | op_submit a => submit a s
  end.

(** The container a member function is called on. *)
Definition receiver (o : Operation) : option Container :=
  match o with
  | op_Initialize _ | op_InitializeFromConsole _ _ | op_Shutdown | op_Container _ => None
  | op_destroy this
  | op_SetGlobalValue this _ _
  | op_LoadFileSync this _
  | op_LoadSync this _
  | op_RunSync this _ _ _
  | op_submit (submit_LoadFile this _ _)
  | op_submit (submit_Load this _ _)
  | op_submit (submit_Run this _ _ _ _) => Some this
  end.

(** The handle argument of a call, if it has one. *)
Definition handle_of_call (c : Call) : option napa_container_handle :=
  match c with
  | napa_initialize _ | napa_initialize_from_console _ _ | napa_shutdown
  | napa_container_create => None
  | napa_container_init handle _
  | napa_container_release handle
  | napa_container_set_global_value handle _ _
  | napa_container_load_file handle _ _ _
  | napa_container_load_file_sync handle _
  | napa_container_load handle _ _ _
  | napa_container_load_sync handle _
  | napa_container_run handle _ _ _ _ _ _
  | napa_container_run_sync handle _ _ _ _ => Some handle
  end.

(** The destructor among the operations, and the call it makes among the
    calls. *)
Definition is_destroy (o : Operation) : bool :=
  match o with op_destroy _ => true | _ => false end.

Definition is_release (c : Call) : bool :=
  match c with napa_container_release _ => true | _ => false end.

(** The engine moving on by itself, between the caller's operations. *)
Definition set_engine (e : E) (s : State) : State :=
  {| heap := heap s; engine := e; calls := calls s; invoked := invoked s |}.

(** A completion as the engine signals it: for which submission, with which
    context pointer and response, and in which state of its own. *)
Record Completion := MkCompletion {
  completed           : Submission;
  completion_context  : addr;
  completion_engine   : E;
  completion_response : handler_response (handler_of completed)
}.

Definition signal (c : Completion) (s : State) : option State :=
  signal_completion (handler_of (completed c))
    (completion_response c) (completion_context c)
    (set_engine (completion_engine c) s).

(** The invocation a completion owes the callback of its submission. *)
Definition completion_invocation (c : Completion) : Invocation :=
  own_invocation (completed c) (engine_memory (completion_engine c))
    (completion_response c).

(** Several completions, one after the other. *)
Fixpoint signal_all (cs : list Completion) (s : State) : option State :=
  match cs with
  | [] => Some s
  | c :: cs => s ← signal c s; signal_all cs s
  end.

(** Several submissions in a row, and the contexts they create. *)
Definition submit_all (subs : list Submission) (s : State) : State :=
  fold_left (λ s a, submit a s) subs s.

Fixpoint submitted_contexts (subs : list Submission) (s : State) : list addr :=
  match subs with
  | [] => []
  | a :: subs => submitted_context a s :: submitted_contexts subs (submit a s)
  end.

(** A step of the process: an operation of the caller, a completion
    signalled by the engine, or the engine moving on by itself. *)
Inductive Step : Type :=
  | step_operation (o : Operation)
  | step_completion (c : Completion)
  | step_engine (e : E).

Definition step (x : Step) (s : State) : option State :=
  match x with
  | step_operation o => Some (operation_effect o s)
  | step_completion c => signal c s
  | step_engine e => Some (set_engine e s)
  end.

Fixpoint run_steps (steps : list Step) (s : State) : option State :=
  match steps with
  | [] => Some s
  | x :: steps => s ← step x s; run_steps steps s
  end.

Definition is_submission (x : Step) : bool :=
  match x with step_operation (op_submit _) => true | _ => false end.

Definition is_completion (x : Step) : bool :=
  match x with step_completion _ => true | _ => false end.

(** The number of asynchronous submissions and of completions among the
    steps. *)
Definition submissions (steps : list Step) : nat :=
  length (filter (λ x, is_submission x = true) steps).

Definition completions (steps : list Step) : nat :=
  length (filter (λ x, is_completion x = true) steps).

(** The free store is in order: nothing lives at the null address, and no
    buffer of argument views is left in it. *)
Definition free_store_in_order (s : State) : Prop :=
  heap s !! NULL = None
  ∧ ∀ p views, heap s !! p ≠ Some (ViewArray views).

End Runtime.

(** ** An engine for the examples

    Callbacks are named by strings. The engine state counts the calls made.
    Initialization succeeds on empty settings only; every other call that
    returns a code succeeds. The n-th call, when it creates a container,
    returns the handle 4096 + n. Every run answers Success with no error and
    the one-byte return value "3", which the engine keeps at address 8192. *)
Definition example_memory : Memory :=
  λ a, if decide (a = 8192) then "3"%byte else "000"%byte.

Definition example_response : napa_container_response :=
  {| response_code := NAPA_RESPONSE_SUCCESS;
     response_error := {| ref_data := NULL; ref_size := 0 |};
     response_return_value := {| ref_data := 8192; ref_size := 1 |} |}.

Definition example_code (c : Call) : NapaResponseCode :=
  match c with
  | napa_container_init _ settings =>
      if decide (ref_size settings = 0%nat) then NAPA_RESPONSE_SUCCESS
      else NAPA_RESPONSE_INITIALIZATION_FAILURE
  | _ => NAPA_RESPONSE_SUCCESS
  end.

#[global] Instance example_engine
  : NapaRuntimeC (LoadCallback := string) (RunCallback := string) nat :=
  {| engine_next := λ _ _ n, S n;
     engine_code := λ c _ _, example_code c;
     engine_handle := λ _ _ n, 4096 + Z.of_nat n;
     engine_response := λ _ _ _, example_response;
     engine_memory := λ _, example_memory |}.

Definition example_state : State (LoadCallback := string) (RunCallback := string) :=
  {| heap := ∅; engine := 0%nat; calls := []; invoked := [] |}.

(** The text "1" at address 64, "2" at 96, the name "add" at 32, the
    settings "" at 16 and the settings "x" at 24. *)
Definition example_args : list string_object :=
  [ {| str_data := 64; str_bytes := ["1"%byte] |};
    {| str_data := 96; str_bytes := ["2"%byte] |} ].

Definition example_func : string_object :=
  {| str_data := 32; str_bytes := ["a"%byte; "d"%byte; "d"%byte] |}.

Definition example_settings : string_object :=
  {| str_data := 16; str_bytes := [] |}.

Definition example_bad_settings : string_object :=
  {| str_data := 24; str_bytes := ["x"%byte] |}.

(** A session on the example engine: two asynchronous runs and a load are
    submitted around a synchronous run; the engine completes the load and
    the second run. *)
Definition example_container : Container := {| _handle := 4096 |}.

Definition example_run_A : Submission (LoadCallback := string) (RunCallback := string) :=
  submit_Run example_container example_func example_args "A"%string 0.

Definition example_load_B : Submission (LoadCallback := string) (RunCallback := string) :=
  submit_Load example_container example_func "B"%string.

Definition example_run_C : Submission (LoadCallback := string) (RunCallback := string) :=
  submit_Run example_container example_func [] "C"%string 7.

Definition example_completion_A : Completion (E := nat) :=
  {| completed := example_run_A; completion_context := 2;
     completion_engine := 10%nat; completion_response := example_response |}.

Definition example_completion_B : Completion (E := nat) :=
  {| completed := example_load_B; completion_context := 3;
     completion_engine := 11%nat;
     completion_response := NAPA_RESPONSE_LOAD_FAILURE |}.

Definition example_completion_C : Completion (E := nat) :=
  {| completed := example_run_C; completion_context := 3;
     completion_engine := 12%nat; completion_response := example_response |}.

Definition example_steps : list (Step (E := nat)) :=
  [ step_operation (op_submit example_run_A);
    step_operation (op_submit example_load_B);
    step_operation (op_RunSync example_container example_func example_args 5);
    step_completion example_completion_B;
    step_operation (op_submit example_run_C);
    step_engine 20%nat;
    step_completion example_completion_C ].

(** Member functions called on the example container. *)
Definition example_member_functions
  : list (Operation (LoadCallback := string) (RunCallback := string)) :=
  [ op_SetGlobalValue example_container example_func 512;
    op_submit example_run_A;
    op_LoadSync example_container example_func;
    op_RunSync example_container example_func example_args 5 ].

(** * Properties *)

(** ** Text and views *)

Lemma read_bytes_length (m : Memory) (p : addr) (n : nat) :
  length (read_bytes m p n) = n.
Proof. unfold read_bytes. by rewrite length_map, length_seq. Qed.

Lemma read_bytes_lookup (m : Memory) (p : addr) (n i : nat) :
  (i < n)%nat → read_bytes m p n !! i = Some (m (p + Z.of_nat i)).
Proof.
  intros Hi. unfold read_bytes.
  rewrite list_lookup_fmap, lookup_seq_lt by done. done.
Qed.

Lemma read_bytes_ext (m1 m2 : Memory) (p : addr) (n : nat) :
  (∀ i, (i < n)%nat → m1 (p + Z.of_nat i) = m2 (p + Z.of_nat i)) →
  read_bytes m1 p n = read_bytes m2 p n.
Proof.
  intros Heq. unfold read_bytes. apply map_ext_in.
  intros i Hin. apply Heq. apply in_seq in Hin. lia.
Qed.

Lemma ref_to_string_ext (m1 m2 : Memory) (r : napa_string_ref) :
  (∀ a, in_view r a → m1 a = m2 a) →
  NAPA_STRING_REF_TO_STD_STRING m1 r = NAPA_STRING_REF_TO_STD_STRING m2 r.
Proof.
  intros Heq. apply read_bytes_ext. intros i Hi. apply Heq.
  unfold in_view. lia.
Qed.

(** ** [Response] *)

(** C8. A default-constructed [Response] has code Undefined, an empty error
    text and an empty return value text. *)
Theorem Response_default_is_undefined_and_empty :
  code Response_default = NAPA_RESPONSE_UNDEFINED
  ∧ error Response_default = []
  ∧ returnValue Response_default = [].
Proof. by repeat split. Qed.

(** C6. Constructing a [Response] from an engine-native response copies the
    text the engine's two views designate: the code is taken over, each text
    has exactly the length of its view (nothing is truncated) and its i-th
    byte is the byte stored at offset i of the view. The [Response] holds
    the bytes themselves ([std::string] members), not the views: it is
    determined by the bytes inside the two ranges at the time of the
    conversion and by nothing else in the storage. *)
Theorem Response_of_copies_engine_text (m : Memory) (r : napa_container_response) :
  code (Response_of m r) = response_code r
  ∧ error (Response_of m r)
      = read_bytes m (ref_data (response_error r)) (ref_size (response_error r))
  ∧ returnValue (Response_of m r)
      = read_bytes m (ref_data (response_return_value r))
          (ref_size (response_return_value r))
  ∧ length (error (Response_of m r)) = ref_size (response_error r)
  ∧ length (returnValue (Response_of m r)) = ref_size (response_return_value r)
  ∧ (∀ i, (i < ref_size (response_error r))%nat →
       error (Response_of m r) !! i
         = Some (m (ref_data (response_error r) + Z.of_nat i)))
  ∧ (∀ i, (i < ref_size (response_return_value r))%nat →
       returnValue (Response_of m r) !! i
         = Some (m (ref_data (response_return_value r) + Z.of_nat i)))
  ∧ (∀ m' : Memory,
       (∀ a, in_view (response_error r) a ∨ in_view (response_return_value r) a →
             m' a = m a) →
       Response_of m' r = Response_of m r).
Proof.
  repeat split; cbn.
  - apply read_bytes_length.
  - apply read_bytes_length.
  - intros i Hi. by apply read_bytes_lookup.
  - intros i Hi. by apply read_bytes_lookup.
  - intros m' Hsame. unfold Response_of. f_equal.
    + apply ref_to_string_ext. intros a Ha. apply Hsame. by left.
    + apply ref_to_string_ext. intros a Ha. apply Hsame. by right.
Qed.

(** C4 fails as stated: the default-constructed [Response] is produced by
    the wrapper, its error text is empty, and its code is Undefined, not
    Success. *)
Lemma Response_default_empty_error_without_success :
  Response_produced Response_default
  ∧ ¬ (error Response_default = [] ↔ code Response_default = NAPA_RESPONSE_SUCCESS).
Proof.
  split; [constructor |].
  intros [Hsuccess _]. by specialize (Hsuccess eq_refl).
Qed.

(** C4, amended. For every [Response] the wrapper produces, the error text
    is empty whenever the code is Success; and when the error text is empty
    the code is Success, unless the [Response] is the default-constructed one
    (code Undefined). For a [Response] converted from an engine-native
    response this rests on the engine reporting an empty error view exactly
    with the code Success: the wrapper copies both unchanged. *)
Theorem Response_error_empty_on_success (R : Response) :
  Response_produced R →
  (code R = NAPA_RESPONSE_SUCCESS → error R = [])
  ∧ (error R = [] → code R = NAPA_RESPONSE_SUCCESS ∨ R = Response_default).
Proof.
  intros [|m r Hagree].
  - split; [done | by right].
  - unfold error_view_agrees_with_code in Hagree.
    split; cbn; unfold NAPA_STRING_REF_TO_STD_STRING.
    + intros Hcode. apply Hagree in Hcode.
      apply nil_length_inv. by rewrite read_bytes_length.
    + intros Hempty. left. apply Hagree.
      apply (f_equal length) in Hempty. by rewrite read_bytes_length in Hempty.
Qed.

(** ** Argument conversion *)

(** While the capacity suffices, [emplace_back] appends in place. *)
Lemma emplace_back_within_capacity {A} (v : vector A) (x : A) :
  (vec_size v < vec_capacity v)%nat →
  emplace_back v x
  = {| vec_elems := vec_elems v ++ [x];
       vec_capacity := vec_capacity v;
       vec_constructed := S (vec_constructed v);
       vec_relocated := vec_relocated v |}.
Proof.
  intros Hlt. unfold emplace_back.
  by apply Nat.ltb_lt in Hlt as ->.
Qed.

(** The loop of [ConvertToNapaRuntimeArgs], started on a vector with room
    for all of [args], never changes the buffer. *)
Lemma emplace_loop_within_capacity (args : list string_object)
    (res : vector napa_string_ref) :
  (vec_size res + length args ≤ vec_capacity res)%nat →
  fold_left (λ res arg, emplace_back res (STD_STRING_TO_NAPA_STRING_REF arg)) args res
  = {| vec_elems := vec_elems res ++ map STD_STRING_TO_NAPA_STRING_REF args;
       vec_capacity := vec_capacity res;
       vec_constructed := vec_constructed res + length args;
       vec_relocated := vec_relocated res |}.
Proof.
  revert res. induction args as [|arg args IH]; intros res Hroom; cbn [fold_left].
  - destruct res; cbn. by rewrite app_nil_r, Nat.add_0_r.
  - cbn [length] in Hroom.
    rewrite emplace_back_within_capacity by lia.
    rewrite IH by (unfold vec_size in *; cbn; rewrite length_app; cbn; lia).
    cbn. f_equal.
    + by rewrite <- app_assoc.
    + lia.
Qed.

Lemma ConvertToNapaRuntimeArgs_unfold (args : list string_object) :
  ConvertToNapaRuntimeArgs args
  = {| vec_elems := map STD_STRING_TO_NAPA_STRING_REF args;
       vec_capacity := length args;
       vec_constructed := length args;
       vec_relocated := 0 |}.
Proof.
  unfold ConvertToNapaRuntimeArgs, reserve, vector_empty. cbn.
  destruct args as [|arg args].
  - done.
  - cbn [length]. replace (0 <? S (length args))%nat with true by done.
    rewrite emplace_loop_within_capacity by (unfold vec_size; cbn; lia).
    done.
Qed.

(** C7. Converting a sequence of argument strings yields as many views, in
    the same order; the i-th view is the pair of the i-th string's buffer
    address and size, so it reads back that string's bytes from the storage
    the string lives in; and the conversion constructs exactly one view per
    argument, without ever moving one to a new buffer. *)
Theorem ConvertToNapaRuntimeArgs_views (args : list string_object) :
  vec_size (ConvertToNapaRuntimeArgs args) = length args
  ∧ (∀ i : nat,
       vec_elems (ConvertToNapaRuntimeArgs args) !! i
       = (λ arg, {| ref_data := str_data arg; ref_size := length (str_bytes arg) |})
           <$> args !! i)
  ∧ (∀ (m : Memory) (i : nat) (arg : string_object) (view : napa_string_ref),
       args !! i = Some arg →
       vec_elems (ConvertToNapaRuntimeArgs args) !! i = Some view →
       stored m arg →
       NAPA_STRING_REF_TO_STD_STRING m view = str_bytes arg)
  ∧ vec_constructed (ConvertToNapaRuntimeArgs args) = length args
  ∧ vec_relocated (ConvertToNapaRuntimeArgs args) = 0%nat.
Proof.
  rewrite ConvertToNapaRuntimeArgs_unfold. unfold vec_size. cbn.
  assert (Hith : ∀ i : nat,
    map STD_STRING_TO_NAPA_STRING_REF args !! i
    = (λ arg, {| ref_data := str_data arg; ref_size := length (str_bytes arg) |})
        <$> args !! i).
  { intros i. apply list_lookup_fmap. }
  repeat split.
  - apply length_map.
  - exact Hith.
  - intros m i arg view Harg Hview Hstored.
    rewrite Hith, Harg in Hview. injection Hview as <-.
    exact Hstored.
Qed.

(** ** The free store *)

Section Specification.

Context {LoadCallback RunCallback E : Type}.
Context `{!NapaRuntimeC (LoadCallback := LoadCallback) (RunCallback := RunCallback) E}.

Local Abbreviation Heap := (gmap addr (@Block LoadCallback RunCallback)).
Local Abbreviation State := (@State LoadCallback RunCallback E).
Local Abbreviation Submission := (@Submission LoadCallback RunCallback).

Implicit Types (h : Heap) (s t : State) (p q context : addr).

Lemma new_address_fresh h : h !! new_address h = None.
Proof.
  unfold new_address. apply not_elem_of_dom_1.
  pose proof (is_fresh ({[NULL]} ∪ dom h)) as Hfresh. set_solver.
Qed.

Lemma new_address_not_null h : new_address h ≠ NULL.
Proof.
  unfold new_address.
  pose proof (is_fresh ({[NULL]} ∪ dom h)) as Hfresh. set_solver.
Qed.

Lemma new_address_not_live h p b : h !! p = Some b → new_address h ≠ p.
Proof. intros Hlive <-. by rewrite new_address_fresh in Hlive. Qed.

(** Creating and then releasing an object leaves the free store as it was. *)
Lemma delete_new_address h b : delete (new_address h) (<[new_address h := b]> h) = h.
Proof. rewrite delete_insert_eq. apply delete_id, new_address_fresh. Qed.

Lemma vector_data_ConvertToNapaRuntimeArgs (args : list string_object) s :
  vector_data (ConvertToNapaRuntimeArgs args) s
  = (argv_address args (heap s), set_heap (argv_store args (heap s)) s).
Proof.
  rewrite ConvertToNapaRuntimeArgs_unfold. unfold vector_data. cbn.
  destruct args as [|arg args]; cbn.
  - by destruct s.
  - done.
Qed.

Lemma argv_address_fresh (args : list string_object) h :
  h !! argv_address args h = None ∨ argv_address args h = NULL.
Proof. destruct args; [by right | left; apply new_address_fresh]. Qed.

Lemma argv_store_lookup_ne (args : list string_object) h p :
  p ≠ argv_address args h → argv_store args h !! p = h !! p.
Proof.
  destruct args; cbn; [done |]. intros Hne. by rewrite lookup_insert_ne.
Qed.

Lemma argv_store_live (args : list string_object) h p b :
  h !! p = Some b → argv_store args h !! p = Some b.
Proof.
  intros Hlive. destruct args; cbn; [done |].
  rewrite lookup_insert_ne; [done |]. by eapply new_address_not_live.
Qed.

(** Releasing the buffer of [argv] undoes its creation, also underneath a
    block created in between. *)
Lemma vector_destroy_argv (args : list string_object) h e cs inv :
  vector_destroy (argv_address args h)
    {| heap := argv_store args h; engine := e; calls := cs; invoked := inv |}
  = ({| heap := h; engine := e; calls := cs; invoked := inv |} : State).
Proof.
  unfold vector_destroy, delete_, set_heap. destruct args as [|arg args]; cbn.
  - done.
  - rewrite decide_False by apply new_address_not_null. cbn.
    by rewrite delete_new_address.
Qed.

Lemma vector_destroy_argv_under (args : list string_object) h b e cs inv :
  let context := new_address (argv_store args h) in
  vector_destroy (argv_address args h)
    {| heap := <[context := b]> (argv_store args h);
       engine := e; calls := cs; invoked := inv |}
  = ({| heap := <[context := b]> h; engine := e; calls := cs; invoked := inv |} : State).
Proof.
  unfold vector_destroy, delete_, set_heap. destruct args as [|arg args]; cbn.
  - done.
  - rewrite decide_False by apply new_address_not_null. cbn. f_equal.
    rewrite delete_insert_ne, delete_new_address; [done |].
    intros Heq. symmetry in Heq. revert Heq. apply new_address_not_live with
      (b := ViewArray (map STD_STRING_TO_NAPA_STRING_REF (arg :: args))).
    apply lookup_insert_eq.
Qed.

(** ** Synchronous run *)

(** C5. [RunSync] makes one call, [napa_container_run_sync], with the
    container's handle, the view of [func], the number of arguments, the
    array of the argument views and the timeout exactly as given (0
    included), and returns the engine's response converted to a [Response];
    afterwards the free store is as before the call. *)
Theorem RunSync_returns_converted_engine_response
    (this : Container) (func : string_object) (args : list string_object)
    (timeout : uint32_t) s :
  let argv := argv_address args (heap s) in
  let store := argv_store args (heap s) in
  let call :=
    napa_container_run_sync
      (_handle this) (STD_STRING_TO_NAPA_STRING_REF func)
      (length args) argv timeout in
  let response := engine_response call store (engine s) in
  let e := engine_next call store (engine s) in
  Container_RunSync this func args timeout s
  = (Response_of (engine_memory e) response,
     {| heap := heap s; engine := e; calls := calls s ++ [call];
        invoked := invoked s |})
  ∧ (args = []
     ∨ store !! argv = Some (ViewArray (map STD_STRING_TO_NAPA_STRING_REF args))).
Proof.
  cbn zeta. split.
  - unfold Container_RunSync.
    rewrite vector_data_ConvertToNapaRuntimeArgs.
    rewrite ConvertToNapaRuntimeArgs_unfold.
    unfold call_response, perform, set_heap, vec_size. cbn.
    rewrite length_map. f_equal.
    apply vector_destroy_argv.
  - destruct args as [|arg args]; [by left | right].
    cbn. apply lookup_insert_eq.
Qed.

(** ** Asynchronous submission *)

Lemma Container_LoadFile_unfold (this : Container) (file : string_object)
    (callback : LoadCallback) s :
  let context := new_address (heap s) in
  let call :=
    napa_container_load_file
      (_handle this) (STD_STRING_TO_NAPA_STRING_REF file)
      CompletionHandler_Load context in
  Container_LoadFile this file callback s
  = {| heap := <[context := LoadContext (MkContext callback)]> (heap s);
       engine := engine_next call (<[context := LoadContext (MkContext callback)]> (heap s)) (engine s);
       calls := calls s ++ [call];
       invoked := invoked s |}.
Proof. done. Qed.

Lemma Container_Load_unfold (this : Container) (source : string_object)
    (callback : LoadCallback) s :
  let context := new_address (heap s) in
  let call :=
    napa_container_load
      (_handle this) (STD_STRING_TO_NAPA_STRING_REF source)
      CompletionHandler_Load context in
  Container_Load this source callback s
  = {| heap := <[context := LoadContext (MkContext callback)]> (heap s);
       engine := engine_next call (<[context := LoadContext (MkContext callback)]> (heap s)) (engine s);
       calls := calls s ++ [call];
       invoked := invoked s |}.
Proof. done. Qed.

Lemma Container_Run_unfold (this : Container) (func : string_object)
    (args : list string_object) (callback : RunCallback) (timeout : uint32_t) s :
  let argv := argv_address args (heap s) in
  let store := argv_store args (heap s) in
  let context := new_address store in
  let call :=
    napa_container_run
      (_handle this) (STD_STRING_TO_NAPA_STRING_REF func)
      (length args) argv CompletionHandler_Run context timeout in
  Container_Run this func args callback timeout s
  = {| heap := <[context := RunContext (MkContext callback)]> (heap s);
       engine := engine_next call (<[context := RunContext (MkContext callback)]> store) (engine s);
       calls := calls s ++ [call];
       invoked := invoked s |}.
Proof.
  cbn zeta. unfold Container_Run.
  rewrite vector_data_ConvertToNapaRuntimeArgs.
  rewrite ConvertToNapaRuntimeArgs_unfold.
  unfold new, call_void, perform, set_heap, vec_size. cbn.
  rewrite length_map.
  apply vector_destroy_argv_under.
Qed.

Lemma submitted_context_Run (this : Container) (func : string_object)
    (args : list string_object) (callback : RunCallback) (timeout : uint32_t) s :
  submitted_context (submit_Run this func args callback timeout) s
  = new_address (argv_store args (heap s)).
Proof.
  unfold submitted_context. by rewrite vector_data_ConvertToNapaRuntimeArgs.
Qed.

(** The context of a submission is at an address not in use before. *)
Lemma submitted_context_fresh (a : Submission) s :
  heap s !! submitted_context a s = None.
Proof.
  destruct a as [this file callback|this source callback|this func args callback timeout].
  - apply new_address_fresh.
  - apply new_address_fresh.
  - rewrite submitted_context_Run.
    destruct (heap s !! new_address (argv_store args (heap s))) as [b|] eqn:Hlive;
      [| done].
    apply (argv_store_live args) in Hlive.
    by rewrite new_address_fresh in Hlive.
Qed.

(** What a submission does: one call that hands the engine the handler and
    the new context; the context is the only object added to the free
    store; no callback is invoked. *)
Lemma submit_effect (a : Submission) s :
  ∃ call : Call,
    completion_of_call call = Some (handler_of a, submitted_context a s)
    ∧ calls (submit a s) = calls s ++ [call]
    ∧ heap (submit a s) = <[submitted_context a s := context_block a]> (heap s)
    ∧ invoked (submit a s) = invoked s.
Proof.
  destruct a as [this file callback|this source callback|this func args callback timeout].
  - exists (napa_container_load_file
              (_handle this) (STD_STRING_TO_NAPA_STRING_REF file)
              CompletionHandler_Load (new_address (heap s))).
    cbn [submit]. by rewrite Container_LoadFile_unfold.
  - exists (napa_container_load
              (_handle this) (STD_STRING_TO_NAPA_STRING_REF source)
              CompletionHandler_Load (new_address (heap s))).
    cbn [submit]. by rewrite Container_Load_unfold.
  - exists (napa_container_run
              (_handle this) (STD_STRING_TO_NAPA_STRING_REF func)
              (length args) (argv_address args (heap s))
              CompletionHandler_Run (new_address (argv_store args (heap s)))
              timeout).
    rewrite submitted_context_Run. cbn [submit].
    by rewrite Container_Run_unfold.
Qed.

Lemma submit_outstanding (a : Submission) s :
  outstanding (submit a s) (submitted_context a s) a.
Proof.
  destruct (submit_effect a s) as (call & _ & _ & Hheap & _).
  unfold outstanding. rewrite Hheap. apply lookup_insert_eq.
Qed.

(** A submission leaves the contexts of earlier submissions in place, and
    its own context is at another address. *)
Lemma submit_preserves_outstanding (a b : Submission) s q :
  outstanding s q b →
  q ≠ submitted_context a s ∧ outstanding (submit a s) q b.
Proof.
  intros Hb. unfold outstanding in *.
  assert (Hne : q ≠ submitted_context a s).
  { intros ->. by rewrite submitted_context_fresh in Hb. }
  split; [done |].
  destruct (submit_effect a s) as (call & _ & _ & Hheap & _).
  rewrite Hheap. by rewrite lookup_insert_ne.
Qed.

(** ** Completion *)

(** Signalled with the context of an outstanding submission, the handler
    invokes that submission's callback once, with the response it was
    given, and deletes the context. *)
Lemma signal_completion_outstanding (a : Submission) t context
    (response : handler_response (handler_of a)) :
  outstanding t context a →
  signal_completion (handler_of a) response context t
  = Some {| heap := delete context (heap t);
            engine := engine t;
            calls := calls t;
            invoked := invoked t
                       ++ [own_invocation a (engine_memory (engine t)) response] |}.
Proof.
  unfold outstanding. intros Hlive.
  destruct a as [this file callback|this source callback|this func args callback timeout];
    cbn in *;
    unfold CompletionHandler_LoadCallback, CompletionHandler_RunCallback,
      CompletionHandler;
    rewrite Hlive; cbn; done.
Qed.

(** Without a live context of the handler's type at [context] the call has
    no defined behaviour: no callback is invoked twice through one context,
    the first completion has deleted it. *)
Lemma signal_completion_twice (a : Submission) t t' context
    (response response' : handler_response (handler_of a)) :
  signal_completion (handler_of a) response context t = Some t' →
  signal_completion (handler_of a) response' context t' = None.
Proof.
  destruct a as [this file callback|this source callback|this func args callback timeout];
    cbn;
    unfold CompletionHandler_LoadCallback, CompletionHandler_RunCallback,
      CompletionHandler;
    intros Hfirst;
    destruct (heap t !! context) as [b|]; try done;
    destruct b; try done; cbn in Hfirst;
    injection Hfirst as <-; cbn; by rewrite lookup_delete_eq.
Qed.

(** Two submissions in a row, both completed: the free store is back where
    it was. *)
Lemma delete_two_contexts h p q (x y : @Block LoadCallback RunCallback) :
  h !! p = None → h !! q = None → p ≠ q →
  delete q (delete p (<[q := y]> (<[p := x]> h))) = h
  ∧ delete p (delete q (<[q := y]> (<[p := x]> h))) = h.
Proof.
  intros Hp Hq Hne.
  split; apply map_eq; intros i;
    destruct (decide (i = p)), (decide (i = q)); by simplify_map_eq.
Qed.

(** C1. A submission (LoadFile, Load or Run) hands the engine the completion
    handler and the address of a new context that holds the callback given
    at that submission. Whenever the handler is then called with that
    address while the context is still there, it invokes exactly that
    callback, once, with the response it was called with (converted to a
    [Response] for a run), deletes the context, and leaves every other
    context alone. Contexts of later submissions are at other addresses and
    do not disturb it. So for two submissions in a row, completed in either
    order, each callback is invoked once with the response signalled for its
    own context, and both contexts are gone. *)
Theorem completion_invokes_own_callback_once (a : Submission) s :
  let context := submitted_context a s in
  (∃ call : Call,
     calls (submit a s) = calls s ++ [call]
     ∧ completion_of_call call = Some (handler_of a, context))
  ∧ heap s !! context = None
  ∧ outstanding (submit a s) context a
  ∧ (∀ t (response : handler_response (handler_of a)),
       outstanding t context a →
       ∃ t',
         signal_completion (handler_of a) response context t = Some t'
         ∧ invoked t'
           = invoked t ++ [own_invocation a (engine_memory (engine t)) response]
         ∧ heap t' = delete context (heap t)
         ∧ heap t' !! context = None
         ∧ (∀ q (b : Submission), q ≠ context → outstanding t q b → outstanding t' q b))
  ∧ (∀ (b : Submission) t,
       outstanding t context a →
       submitted_context b t ≠ context ∧ outstanding (submit b t) context a)
  ∧ (∀ (b : Submission)
       (response_a : handler_response (handler_of a))
       (response_b : handler_response (handler_of b)),
       let s2 := submit b (submit a s) in
       let context_b := submitted_context b (submit a s) in
       let m := engine_memory (engine s2) in
       context_b ≠ context
       ∧ (∃ t1 t2,
            signal_completion (handler_of a) response_a context s2 = Some t1
            ∧ signal_completion (handler_of b) response_b context_b t1 = Some t2
            ∧ invoked t2
              = invoked s ++ [own_invocation a m response_a; own_invocation b m response_b]
            ∧ heap t2 = heap s)
       ∧ (∃ t1 t2,
            signal_completion (handler_of b) response_b context_b s2 = Some t1
            ∧ signal_completion (handler_of a) response_a context t1 = Some t2
            ∧ invoked t2
              = invoked s ++ [own_invocation b m response_b; own_invocation a m response_a]
            ∧ heap t2 = heap s)).
Proof.
  cbn zeta.
  pose proof (submitted_context_fresh a s) as Hfresh.
  pose proof (submit_outstanding a s) as Hout.
  split_and!.
  - destruct (submit_effect a s) as (call & Hcompletion & Hcalls & _).
    by exists call.
  - done.
  - done.
  - intros t response Hlive.
    eexists. split; [by apply signal_completion_outstanding |]. cbn.
    split_and!; [done | done | apply lookup_delete_eq |].
    intros q b Hne Hb. unfold outstanding in *. cbn.
    rewrite lookup_delete_ne; [done | by intros Heq; apply Hne].
  - intros b t Hlive.
    destruct (submit_preserves_outstanding b a t _ Hlive) as [Hne Hkept].
    split; [by intros Heq; apply Hne | done].
  - intros b response_a response_b.
    destruct (submit_preserves_outstanding b a (submit a s) _ Hout) as [Hne Ha].
    pose proof (submit_outstanding b (submit a s)) as Hb.
    pose proof (submitted_context_fresh b (submit a s)) as Hfresh_b.
    destruct (submit_effect a s) as (call_a & _ & _ & Hheap_a & Hinv_a).
    destruct (submit_effect b (submit a s)) as (call_b & _ & _ & Hheap_b & Hinv_b).
    assert (Hfresh_b' : heap s !! submitted_context b (submit a s) = None).
    { rewrite Hheap_a, lookup_insert_ne in Hfresh_b by done. done. }
    destruct (delete_two_contexts (heap s) _ _
                (context_block a) (context_block b) Hfresh Hfresh_b' Hne)
      as [Hab Hba].
    split_and!.
    + by intros Heq; apply Hne.
    + eexists. eexists.
      split; [by apply signal_completion_outstanding |].
      split.
      { apply signal_completion_outstanding.
        unfold outstanding in *. cbn.
        rewrite lookup_delete_ne; [done | by intros Heq; apply Hne]. }
      cbn. rewrite Hinv_b, Hinv_a, <- app_assoc. split; [done |].
      by rewrite Hheap_b, Hheap_a.
    + eexists. eexists.
      split; [by apply signal_completion_outstanding |].
      split.
      { apply signal_completion_outstanding.
        unfold outstanding in *. cbn. by rewrite lookup_delete_ne. }
      cbn. rewrite Hinv_b, Hinv_a, <- app_assoc. split; [done |].
      by rewrite Hheap_b, Hheap_a.
Qed.

(** ** The argument views of an asynchronous run *)

(** C10. [Run] hands the engine the address of the array of argument views
    and releases that array before it returns: unless there are no
    arguments (and no array), the array is in the free store while the call
    to the engine is made and gone when [Run] has returned. All [Run]
    leaves behind is the completion context, which holds the callback and
    nothing else; everything else in the free store was there before. *)
Theorem Run_releases_argv_on_return
    (this : Container) (func : string_object) (args : list string_object)
    (callback : RunCallback) (timeout : uint32_t) s :
  let argv := argv_address args (heap s) in
  let store := argv_store args (heap s) in
  let context := new_address store in
  let call :=
    napa_container_run
      (_handle this) (STD_STRING_TO_NAPA_STRING_REF func)
      (length args) argv CompletionHandler_Run context timeout in
  let s' := Container_Run this func args callback timeout s in
  calls s' = calls s ++ [call]
  ∧ engine s' = engine_next call (<[context := RunContext (MkContext callback)]> store) (engine s)
  ∧ (args = []
     ∨ (argv ≠ NULL
        ∧ <[context := RunContext (MkContext callback)]> store !! argv
          = Some (ViewArray (map STD_STRING_TO_NAPA_STRING_REF args))
        ∧ heap s' !! argv = None))
  ∧ heap s' = <[context := RunContext (MkContext callback)]> (heap s)
  ∧ (∀ p (b : Block),
       heap s' !! p = Some b →
       heap s !! p = Some b ∨ (p = context ∧ b = RunContext (MkContext callback))).
Proof.
  cbn zeta. rewrite Container_Run_unfold. cbn.
  split_and!; try done.
  - destruct args as [|arg args]; [by left | right]. cbn.
    set (views := @ViewArray LoadCallback RunCallback
                    (map STD_STRING_TO_NAPA_STRING_REF (arg :: args))).
    set (argv := new_address (heap s)).
    assert (Hne : new_address (<[argv := views]> (heap s)) ≠ argv).
    { apply new_address_not_live with (b := views). apply lookup_insert_eq. }
    split_and!.
    + apply new_address_not_null.
    + rewrite lookup_insert_ne by done. apply lookup_insert_eq.
    + rewrite lookup_insert_ne by done. apply new_address_fresh.
  - intros p b Hlive.
    destruct (decide (p = new_address (argv_store args (heap s)))) as [->|Hne].
    + rewrite lookup_insert_eq in Hlive. injection Hlive as <-. by right.
    + rewrite lookup_insert_ne in Hlive by done. by left.
Qed.

(** ** Construction, copy and destruction *)

Lemma Container_Container_unfold (settings : string_object) s :
  let handle := engine_handle napa_container_create (heap s) (engine s) in
  let e := engine_next napa_container_create (heap s) (engine s) in
  let init := napa_container_init handle (STD_STRING_TO_NAPA_STRING_REF settings) in
  Container_Container settings s
  = ({| _handle := handle |},
     {| heap := heap s;
        engine := engine_next init (heap s) e;
        calls := calls s ++ [napa_container_create; init];
        invoked := invoked s |}).
Proof.
  cbn zeta. unfold Container_Container, call_handle, call_code, perform. cbn.
  by rewrite <- app_assoc.
Qed.

(** C2 does not hold of the constructor. When the engine answers
    [napa_container_init] with a code other than Success, the constructor
    still yields a [Container]: it holds the handle the engine created, and
    the code is dropped without a trace. *)
Theorem Container_Container_drops_init_failure (settings : string_object) s :
  let handle := engine_handle napa_container_create (heap s) (engine s) in
  let e := engine_next napa_container_create (heap s) (engine s) in
  let init := napa_container_init handle (STD_STRING_TO_NAPA_STRING_REF settings) in
  engine_code init (heap s) e ≠ NAPA_RESPONSE_SUCCESS →
  ∃ s',
    Container_Container settings s = ({| _handle := handle |}, s')
    ∧ calls s' = calls s ++ [napa_container_create; init]
    ∧ heap s' = heap s
    ∧ invoked s' = invoked s.
Proof.
  cbn zeta. intros _. rewrite Container_Container_unfold. by eexists.
Qed.

(** C3 does not hold of the class. A [Container] can be copied: the copy
    holds the same handle as the original, and destroying both releases
    that one handle twice. *)
Theorem Container_copy_releases_handle_twice (this : Container) s :
  let copy := Container_copy this in
  _handle copy = _handle this
  ∧ calls (Container_destroy this (Container_destroy copy s))
    = calls s ++ [napa_container_release (_handle this);
                  napa_container_release (_handle this)].
Proof.
  cbn zeta. split; [done |].
  unfold Container_destroy, call_void, perform. cbn. by rewrite <- app_assoc.
Qed.

End Specification.

(** * Examples on the example engine *)

(** Scenario: a container created with empty settings, then
    [RunSync("add", ["1", "2"], 0)]. *)
Example RunSync_add_example :
  let '(container, s) := Container_Container example_settings example_state in
  let '(response, s) := Container_RunSync container example_func example_args 0 s in
  response
  = {| code := NAPA_RESPONSE_SUCCESS; error := []; returnValue := ["3"%byte] |}
  ∧ calls s
    = [ napa_container_create;
        napa_container_init 4096 {| ref_data := 16; ref_size := 0 |};
        napa_container_run_sync 4096 {| ref_data := 32; ref_size := 3 |} 2 1 0 ]
  ∧ heap s = ∅.
Proof. vm_compute. done. Qed.

(** Scenario: two asynchronous runs in a row with callbacks "A" and "B";
    the engine completes B first, then A. *)
Example Run_two_callbacks_example :
  let container := {| _handle := 4096 |} in
  let failed :=
    {| response_code := NAPA_RESPONSE_EXECUTION_FAILURE;
       response_error := {| ref_data := 8192; ref_size := 1 |};
       response_return_value := {| ref_data := NULL; ref_size := 0 |} |} in
  let s := Container_Run container example_func example_args "A"%string 0 example_state in
  let s := Container_Run container example_func [] "B"%string 7 s in
  calls s
  = [ napa_container_run 4096 {| ref_data := 32; ref_size := 3 |} 2 1
        CompletionHandler_Run 2 0;
      napa_container_run 4096 {| ref_data := 32; ref_size := 3 |} 0 NULL
        CompletionHandler_Run 3 7 ]
  ∧ invoked s = []
  ∧ (s' ← CompletionHandler_RunCallback failed 3 s;
     s' ← CompletionHandler_RunCallback example_response 2 s';
     Some (invoked s', heap s'))
    = Some ([ invoke_run "B"%string
                {| code := NAPA_RESPONSE_EXECUTION_FAILURE;
                   error := ["3"%byte]; returnValue := [] |};
              invoke_run "A"%string
                {| code := NAPA_RESPONSE_SUCCESS;
                   error := []; returnValue := ["3"%byte] |} ],
            ∅).
Proof. vm_compute. done. Qed.

(** The constructor on settings the example engine rejects. *)
Example Container_Container_bad_settings_example :
  engine_code
    (napa_container_init 4096 (STD_STRING_TO_NAPA_STRING_REF example_bad_settings))
    (heap example_state) 1%nat
  = NAPA_RESPONSE_INITIALIZATION_FAILURE
  ∧ (Container_Container example_bad_settings example_state).1 = {| _handle := 4096 |}.
Proof. vm_compute. done. Qed.

Lemma Container_Container_drops_init_failure_witness :
  engine_code
    (napa_container_init 4096 (STD_STRING_TO_NAPA_STRING_REF example_bad_settings))
    (heap example_state) 1%nat
  ≠ NAPA_RESPONSE_SUCCESS
  ∧ ∃ s',
      Container_Container example_bad_settings example_state
      = ({| _handle := 4096 |}, s')
      ∧ calls s'
        = calls example_state
          ++ [ napa_container_create;
               napa_container_init 4096
                 (STD_STRING_TO_NAPA_STRING_REF example_bad_settings) ]
      ∧ heap s' = heap example_state
      ∧ invoked s' = invoked example_state.
Proof.
  split.
  - vm_compute. discriminate.
  - refine (Container_Container_drops_init_failure example_bad_settings example_state _).
    vm_compute. discriminate.
Defined.

Lemma Response_error_empty_on_success_witness :
  Response_produced (Response_of example_memory example_response)
  ∧ (code (Response_of example_memory example_response) = NAPA_RESPONSE_SUCCESS →
     error (Response_of example_memory example_response) = [])
  ∧ (error (Response_of example_memory example_response) = [] →
     code (Response_of example_memory example_response) = NAPA_RESPONSE_SUCCESS
     ∨ Response_of example_memory example_response = Response_default).
Proof.
  assert (Hproduced : Response_produced (Response_of example_memory example_response)).
  { constructor. split; reflexivity. }
  split; [exact Hproduced |].
  exact (Response_error_empty_on_success _ Hproduced).
Defined.

(** The views of the example arguments: built in place, in a buffer made
    once. *)
Example ConvertToNapaRuntimeArgs_example :
  ConvertToNapaRuntimeArgs example_args
  = {| vec_elems := [ {| ref_data := 64; ref_size := 1 |};
                      {| ref_data := 96; ref_size := 1 |} ];
       vec_capacity := 2;
       vec_constructed := 2;
       vec_relocated := 0 |}.
Proof. reflexivity. Qed.

(** Without the call of [reserve] the same loop would move elements each
    time the buffer grows. *)
Example emplace_back_without_reserve_example :
  fold_left emplace_back [1; 2; 3; 4; 5]%nat vector_empty
  = {| vec_elems := [1; 2; 3; 4; 5]%nat;
       vec_capacity := 8;
       vec_constructed := 5;
       vec_relocated := 7 |}.
Proof. reflexivity. Qed.

(** The conversion takes the engine's fields as they come: on a native
    response with code Success and a non-empty error view the [Response]
    has code Success and a non-empty error text. *)
Example Response_of_success_with_error_example :
  Response_of example_memory
    {| response_code := NAPA_RESPONSE_SUCCESS;
       response_error := {| ref_data := 8192; ref_size := 1 |};
       response_return_value := {| ref_data := NULL; ref_size := 0 |} |}
  = {| code := NAPA_RESPONSE_SUCCESS; error := ["3"%byte]; returnValue := [] |}.
Proof. reflexivity. Qed.

(** A container copied and both copies destroyed. *)
Example Container_copy_example :
  let '(a, s) := Container_Container example_settings example_state in
  let b := Container_copy a in
  let s := Container_destroy b s in
  let s := Container_destroy a s in
  calls s
  = [ napa_container_create;
      napa_container_init 4096 {| ref_data := 16; ref_size := 0 |};
      napa_container_release 4096;
      napa_container_release 4096 ].
Proof. reflexivity. Qed.


(** * Histories of operations and completions *)

Section Histories.

Context {LoadCallback RunCallback E : Type}.
Context `{!NapaRuntimeC (LoadCallback := LoadCallback) (RunCallback := RunCallback) E}.

Local Abbreviation Heap := (gmap addr (@Block LoadCallback RunCallback)).
Local Abbreviation State := (@State LoadCallback RunCallback E).
Local Abbreviation Submission := (@Submission LoadCallback RunCallback).
Local Abbreviation Operation := (@Operation LoadCallback RunCallback).
Local Abbreviation Completion := (@Completion LoadCallback RunCallback E).
Local Abbreviation Step := (@Step LoadCallback RunCallback E).

Implicit Types (h : Heap) (s t : State) (p q context : addr).
Implicit Types (a : Submission) (o : Operation) (c : Completion) (x : Step).

(** ** What one operation does to the state *)

Lemma Container_RunSync_state (this : Container) (func : string_object)
    (args : list string_object) (timeout : uint32_t) s :
  let call :=
    napa_container_run_sync
      (_handle this) (STD_STRING_TO_NAPA_STRING_REF func)
      (length args) (argv_address args (heap s)) timeout in
  (Container_RunSync this func args timeout s).2
  = {| heap := heap s;
       engine := engine_next call (argv_store args (heap s)) (engine s);
       calls := calls s ++ [call];
       invoked := invoked s |}.
Proof.
  cbn zeta. unfold Container_RunSync.
  rewrite vector_data_ConvertToNapaRuntimeArgs, ConvertToNapaRuntimeArgs_unfold.
  unfold call_response, perform, set_heap, vec_size. cbn.
  rewrite length_map. apply vector_destroy_argv.
Qed.

(** The free store after an operation: a submission adds its context,
    nothing else changes it. *)
Lemma operation_effect_heap o s :
  heap (operation_effect o s)
  = match o with
    | op_submit a => <[submitted_context a s := context_block a]> (heap s)
    | _ => heap s
    end.
Proof.
  destruct o; cbn [operation_effect]; try done.
  - by rewrite Container_RunSync_state.
  - by destruct (submit_effect a s) as (call & _ & _ & Hheap & _).
Qed.

Lemma operation_effect_invoked o s :
  invoked (operation_effect o s) = invoked s.
Proof.
  destruct o; cbn [operation_effect]; try done.
  - by rewrite Container_RunSync_state.
  - by destruct (submit_effect a s) as (call & _ & _ & _ & Hinvoked).
Qed.

(** A member function makes one call, on the handle of its container; only
    the destructor releases the handle. *)
Lemma operation_effect_calls o (this : Container) s :
  receiver o = Some this →
  ∃ call : Call,
    calls (operation_effect o s) = calls s ++ [call]
    ∧ handle_of_call call = Some (_handle this)
    ∧ is_release call = is_destroy o.
Proof.
  destruct o as [| | | |this'|this'|this'|this'|this'|a];
    cbn [receiver]; intros Hthis; try done.
  - injection Hthis as ->. by eexists.
  - injection Hthis as ->. by eexists.
  - injection Hthis as ->. by eexists.
  - injection Hthis as ->. by eexists.
  - injection Hthis as ->. cbn [operation_effect].
    rewrite Container_RunSync_state. by eexists.
  - destruct a as [this' file callback|this' source callback
                  |this' func args callback timeout];
      injection Hthis as ->; cbn [operation_effect submit].
    + rewrite Container_LoadFile_unfold. by eexists.
    + rewrite Container_Load_unfold. by eexists.
    + rewrite Container_Run_unfold. by eexists.
Qed.

(** ** What one completion does to the state *)

Lemma CompletionHandler_Some {CallbackType ResponseType : Type}
    (cast : Block → option (AsyncCompletionContext CallbackType))
    (call : CallbackType → ResponseType → State → State)
    (response : ResponseType) context t t' :
  CompletionHandler cast call response context t = Some t' →
  ∃ (b : Block) (object : AsyncCompletionContext CallbackType),
    heap t !! context = Some b
    ∧ cast b = Some object
    ∧ t' = delete_ context (call (callback object) response t).
Proof.
  unfold CompletionHandler. intros Hsome.
  destruct (heap t !! context) as [b|]; [| done].
  destruct (cast b) as [object|] eqn:Hcast; [| done].
  injection Hsome as <-. by exists b, object.
Qed.

Lemma signal_completion_Some (h : completion_handler)
    (response : handler_response h) context t t' :
  signal_completion h response context t = Some t' →
  match h with
  | CompletionHandler_Load =>
      ∃ object, heap t !! context = Some (LoadContext object)
  | CompletionHandler_Run =>
      ∃ object, heap t !! context = Some (RunContext object)
  end
  ∧ heap t' = delete context (heap t)
  ∧ engine t' = engine t
  ∧ calls t' = calls t
  ∧ ∃ i : Invocation, invoked t' = invoked t ++ [i].
Proof.
  destruct h; cbn; intros Hsome;
    apply CompletionHandler_Some in Hsome as (b & object & Hlive & Hcast & ->);
    destruct b; try done; cbn in Hcast; injection Hcast as ->;
    (split; [by eexists |]); cbn; split_and!; try done; by eexists.
Qed.

Lemma signal_Some c t t' :
  signal c t = Some t' →
  is_Some (heap t !! completion_context c)
  ∧ heap t' = delete (completion_context c) (heap t)
  ∧ engine t' = completion_engine c
  ∧ calls t' = calls t
  ∧ ∃ i : Invocation, invoked t' = invoked t ++ [i].
Proof.
  unfold signal. intros Hsome.
  apply signal_completion_Some in Hsome as (Hlive & Hheap & Hengine & Hcalls & Hinvoked).
  cbn in *. split_and!; try done.
  destruct (handler_of (completed c)); destruct Hlive as [object Hlive]; by eexists.
Qed.

Lemma signal_outstanding c t :
  outstanding t (completion_context c) (completed c) →
  signal c t
  = Some {| heap := delete (completion_context c) (heap t);
            engine := completion_engine c;
            calls := calls t;
            invoked := invoked t ++ [completion_invocation c] |}.
Proof.
  intros Hlive. unfold signal.
  by rewrite signal_completion_outstanding.
Qed.

(** ** Steps *)

Lemma submissions_cons x (steps : list Step) :
  submissions (x :: steps)
  = ((if is_submission x then 1 else 0) + submissions steps)%nat.
Proof.
  unfold submissions. rewrite filter_cons.
  destruct (is_submission x); by case_decide.
Qed.

Lemma completions_cons x (steps : list Step) :
  completions (x :: steps)
  = ((if is_completion x then 1 else 0) + completions steps)%nat.
Proof.
  unfold completions. rewrite filter_cons.
  destruct (is_completion x); by case_decide.
Qed.



Lemma submitted_context_not_null a s : submitted_context a s ≠ NULL.
Proof. destruct a; apply new_address_not_null. Qed.

Lemma step_keeps_free_store_in_order x s t :
  step x s = Some t → free_store_in_order s → free_store_in_order t.
Proof.
  unfold free_store_in_order. intros Hstep [Hnull Hviews].
  destruct x as [o|c|e]; cbn in Hstep.
  - injection Hstep as <-. rewrite operation_effect_heap.
    destruct o; try done.
    split.
    + rewrite lookup_insert_ne; [done | apply submitted_context_not_null].
    + intros p views.
      destruct (decide (p = submitted_context a s)) as [->|Hne].
      * rewrite lookup_insert_eq. by destruct a.
      * by rewrite lookup_insert_ne.
  - apply signal_Some in Hstep as (_ & -> & _). split.
    + destruct (decide (completion_context c = NULL)) as [->|Hne].
      * apply lookup_delete_eq.
      * by rewrite lookup_delete_ne.
    + intros p views.
      destruct (decide (completion_context c = p)) as [->|Hne].
      * by rewrite lookup_delete_eq.
      * by rewrite lookup_delete_ne.
  - by injection Hstep as <-.
Qed.

(** X5. The wrapper keeps the free store in order: if nothing lives at the
    null address and no buffer of argument views is in the free store, then
    the same holds after any defined sequence of operations, completions
    and engine moves. In particular a buffer of argument views never
    outlives the [Run] or [RunSync] that made it. *)
Theorem free_store_stays_in_order (steps : list Step) s t :
  free_store_in_order s →
  run_steps steps s = Some t →
  free_store_in_order t.
Proof.
  revert s. induction steps as [|x steps IH]; intros s Hs Hrun; cbn in Hrun.
  - by injection Hrun as <-.
  - destruct (step x s) as [s1|] eqn:Hstep; [| done]. cbn in Hrun.
    apply (IH s1); [| done]. by eapply step_keeps_free_store_in_order.
Qed.

Lemma step_size x s t :
  step x s = Some t →
  (size (heap t) + (if is_completion x then 1 else 0)
   = size (heap s) + (if is_submission x then 1 else 0))%nat.
Proof.
  destruct x as [o|c|e]; cbn; intros Hstep.
  - injection Hstep as <-. rewrite operation_effect_heap.
    destruct o; try lia.
    rewrite map_size_insert_None by apply submitted_context_fresh. lia.
  - apply signal_Some in Hstep as (Hlive & -> & _).
    rewrite map_size_delete_Some by done.
    destruct Hlive as [b Hlive].
    assert (size (heap s) ≠ 0)%nat; [| lia].
    intros Hempty%map_size_empty_inv. by rewrite Hempty in Hlive.
  - injection Hstep as <-. cbn. lia.
Qed.

(** X6. The completion contexts are accounted for: over any defined sequence
    of steps the free store grows by one object per asynchronous submission
    and shrinks by one per completion, and by nothing else. A submission the
    engine never completes leaves its context behind for good. *)
Theorem free_store_accounting (steps : list Step) s t :
  run_steps steps s = Some t →
  (size (heap t) + completions steps = size (heap s) + submissions steps)%nat.
Proof.
  revert s. induction steps as [|x steps IH]; intros s Hrun; cbn in Hrun.
  - injection Hrun as <-. unfold completions, submissions. cbn. lia.
  - destruct (step x s) as [s1|] eqn:Hstep; [| done]. cbn in Hrun.
    apply IH in Hrun. apply step_size in Hstep.
    rewrite completions_cons, submissions_cons. lia.
Qed.

(** X7. Member functions called on one container pass that container's
    handle to the engine, one call each, in the order they are made: the
    calls a sequence of member functions adds to the history are as many as
    the functions, and each carries the handle of the container. *)
Theorem member_functions_pass_own_handle
    (this : Container) (ops : list Operation) s :
  Forall (λ o, receiver o = Some this) ops →
  ∃ cs : list Call,
    calls (fold_left (λ s o, operation_effect o s) ops s) = calls s ++ cs
    ∧ length cs = length ops
    ∧ Forall (λ call, handle_of_call call = Some (_handle this)) cs.
Proof.
  revert s. induction ops as [|o ops IH]; intros s Hops.
  - exists []. by rewrite app_nil_r.
  - apply Forall_cons in Hops as [Ho Hops].
    destruct (operation_effect_calls o this s Ho) as (call & Hcalls & Hhandle & _).
    destruct (IH (operation_effect o s) Hops) as (cs & Hcs & Hlength & Hall).
    exists (call :: cs). cbn [fold_left length].
    split_and!.
    + by rewrite Hcs, Hcalls, <- app_assoc.
    + by rewrite Hlength.
    + by constructor.
Qed.

(** ** Any number of submissions *)

Lemma submit_all_contexts (subs : list Submission) s :
  length (submitted_contexts subs s) = length subs
  ∧ NoDup (submitted_contexts subs s)
  ∧ Forall (λ p, p ≠ NULL ∧ heap s !! p = None) (submitted_contexts subs s)
  ∧ Forall2 (outstanding (submit_all subs s)) (submitted_contexts subs s) subs
  ∧ (∀ p, p ∉ submitted_contexts subs s → heap (submit_all subs s) !! p = heap s !! p)
  ∧ invoked (submit_all subs s) = invoked s
  ∧ size (heap (submit_all subs s)) = (size (heap s) + length subs)%nat.
Proof.
  revert s. induction subs as [|a subs IH]; intros s.
  - cbn. split_and!; [done | constructor | constructor | constructor | done | done | lia].
  - destruct (IH (submit a s))
      as (Hlength & Hnodup & Hfresh & Hout & Hframe & Hinvoked & Hsize).
    destruct (submit_effect a s) as (call & _ & _ & Hheap & Hinvoked_a).
    pose proof (submitted_context_fresh a s) as Hfresh_a.
    rewrite Forall_forall in Hfresh.
    assert (Hnotin : submitted_context a s ∉ submitted_contexts subs (submit a s)).
    { intros Hin. apply Hfresh in Hin as [_ Hnone].
      by rewrite Hheap, lookup_insert_eq in Hnone. }
    cbn [submitted_contexts length].
    change (submit_all (a :: subs) s) with (submit_all subs (submit a s)).
    split_and!.
    + by rewrite Hlength.
    + by apply NoDup_cons.
    + constructor.
      * split; [apply submitted_context_not_null | done].
      * apply Forall_forall. intros p Hin.
        destruct (Hfresh p Hin) as [Hnull Hnone]. split; [done |].
        rewrite Hheap in Hnone.
        destruct (decide (submitted_context a s = p)) as [<-|Hne].
        -- by rewrite lookup_insert_eq in Hnone.
        -- by rewrite lookup_insert_ne in Hnone.
    + constructor; [| done].
      unfold outstanding. rewrite (Hframe _ Hnotin), Hheap.
      apply lookup_insert_eq.
    + intros p [Hne Hnotin']%not_elem_of_cons.
      rewrite (Hframe _ Hnotin'), Hheap. by rewrite lookup_insert_ne.
    + congruence.
    + rewrite Hsize, Hheap, map_size_insert_None by done. lia.
Qed.

(** X1. Any number of submissions made in a row get completion contexts at
    pairwise distinct addresses, none of them null and none in use before.
    Afterwards every one of the contexts is there, holding the callback of
    its own submission; the rest of the free store is as it was, it has
    grown by exactly one object per submission, and no callback has been
    invoked. *)
Theorem submissions_get_distinct_contexts (subs : list Submission) s :
  let contexts := submitted_contexts subs s in
  let s' := submit_all subs s in
  length contexts = length subs
  ∧ NoDup contexts
  ∧ Forall (λ p, p ≠ NULL ∧ heap s !! p = None) contexts
  ∧ Forall2 (outstanding s') contexts subs
  ∧ (∀ p, p ∉ contexts → heap s' !! p = heap s !! p)
  ∧ invoked s' = invoked s
  ∧ size (heap s') = (size (heap s) + length subs)%nat.
Proof. apply submit_all_contexts. Qed.

(** Completions for distinct outstanding contexts all succeed, each
    invoking its own callback, and they remove exactly those contexts. *)
Lemma signal_all_distinct (cs : list Completion) t :
  NoDup (completion_context <$> cs) →
  Forall (λ c, outstanding t (completion_context c) (completed c)) cs →
  ∃ t',
    signal_all cs t = Some t'
    ∧ invoked t' = invoked t ++ (completion_invocation <$> cs)
    ∧ calls t' = calls t
    ∧ ∀ p, heap t' !! p
           = if decide (p ∈ completion_context <$> cs) then None else heap t !! p.
Proof.
  revert t. induction cs as [|c cs IH]; intros t Hnodup Hall.
  - exists t. cbn. split_and!.
    + done.
    + by rewrite app_nil_r.
    + done.
    + intros p. rewrite decide_False; [done | apply not_elem_of_nil].
  - cbn [fmap list_fmap] in Hnodup.
    apply NoDup_cons in Hnodup as [Hnotin Hnodup].
    apply Forall_cons in Hall as [Hc Hall].
    cbn [signal_all]. rewrite (signal_outstanding c t Hc). cbn.
    set (t1 := {| heap := delete (completion_context c) (heap t);
                  engine := completion_engine c;
                  calls := calls t;
                  invoked := invoked t ++ [completion_invocation c] |}).
    assert (Hall1 : Forall (λ c', outstanding t1 (completion_context c') (completed c')) cs).
    { rewrite Forall_forall in Hall. apply Forall_forall. intros c' Hin.
      unfold outstanding. cbn. rewrite lookup_delete_ne; [by apply Hall |].
      intros Heq. apply Hnotin. rewrite Heq. by apply list_elem_of_fmap_2. }
    destruct (IH t1 Hnodup Hall1) as (t' & Hrun & Hinvoked & Hcalls & Hheap).
    exists t'. split_and!; [done | | done |].
    + rewrite Hinvoked. cbn. by rewrite <- app_assoc.
    + intros p. rewrite Hheap. cbn.
      destruct (decide (p = completion_context c)) as [->|Hne].
      * rewrite (decide_True (P := _ ∈ _ :: _)) by apply list_elem_of_here.
        case_decide; [done | apply lookup_delete_eq].
      * rewrite lookup_delete_ne by done.
        destruct (decide (p ∈ completion_context <$> cs)) as [Hin|Hout].
        -- rewrite decide_True; [done | by apply list_elem_of_further].
        -- rewrite decide_False; [done |].
           by apply not_elem_of_cons.
Qed.

(** X2. After any number of submissions in a row, let the engine signal
    one completion for each of them, each with the context of its
    submission, in any order whatever and from any engine state. Then all
    the completions are defined, the callbacks are invoked in the order of
    the completions, each exactly once and with the response signalled for
    its own context, and the free store is again what it was before the
    first submission. *)
Theorem completions_in_any_order (subs : list Submission) (cs : list Completion) s :
  (λ c, (completion_context c, completed c)) <$> cs
    ≡ₚ zip (submitted_contexts subs s) subs →
  ∃ t,
    signal_all cs (submit_all subs s) = Some t
    ∧ invoked t = invoked s ++ (completion_invocation <$> cs)
    ∧ calls t = calls (submit_all subs s)
    ∧ heap t = heap s.
Proof.
  intros Hperm.
  destruct (submit_all_contexts subs s)
    as (Hlength & Hnodup & Hfresh & Hout & Hframe & Hinvoked & _).
  assert (Hcontexts : completion_context <$> cs ≡ₚ submitted_contexts subs s).
  { rewrite <- (fst_zip (submitted_contexts subs s) subs) by lia.
    rewrite <- Hperm, <- list_fmap_compose. done. }
  assert (Hall : Forall (λ c, outstanding (submit_all subs s)
                                (completion_context c) (completed c)) cs).
  { apply Forall_forall. intros c Hin.
    assert (Hzip : (completion_context c, completed c)
                   ∈ zip (submitted_contexts subs s) subs).
    { rewrite <- Hperm.
      by apply (list_elem_of_fmap_2 (λ c, (completion_context c, completed c))). }
    apply list_elem_of_lookup in Hzip as [i Hi].
    apply lookup_zip_with_Some in Hi as (p & a & Heq & Hp & Ha).
    injection Heq as -> ->.
    by eapply Forall2_lookup_lr. }
  destruct (signal_all_distinct cs (submit_all subs s)) as (t & Hrun & Hinv & Hcalls & Hheap).
  { by rewrite Hcontexts. }
  { done. }
  exists t. split_and!; [done | by rewrite Hinv, Hinvoked | done |].
  apply map_eq. intros p. rewrite Hheap.
  rewrite Forall_forall in Hfresh.
  case_decide as Hin.
  - rewrite Hcontexts in Hin. by destruct (Hfresh p Hin) as [_ ->].
  - apply Hframe. by rewrite <- Hcontexts.
Qed.

Lemma step_invoked x s t :
  step x s = Some t →
  ∃ new : list Invocation,
    invoked t = invoked s ++ new
    ∧ length new = if is_completion x then 1%nat else 0%nat.
Proof.
  destruct x as [o|c|e]; cbn; intros Hstep.
  - injection Hstep as <-. exists []. by rewrite operation_effect_invoked, app_nil_r.
  - apply signal_Some in Hstep as (_ & _ & _ & _ & i & Hinvoked). by exists [i].
  - injection Hstep as <-. exists []. by rewrite app_nil_r.
Qed.

(** X9. Callbacks are invoked by completions and by nothing else: over any
    defined sequence of steps the history of invocations only grows at its
    end, by exactly one invocation per completion the engine signals. No
    operation of the caller, synchronous or asynchronous, invokes a
    callback itself. *)
Theorem callbacks_invoked_only_by_completions (steps : list Step) s t :
  run_steps steps s = Some t →
  ∃ new : list Invocation,
    invoked t = invoked s ++ new
    ∧ length new = completions steps.
Proof.
  revert s. induction steps as [|x steps IH]; intros s Hrun; cbn in Hrun.
  - injection Hrun as <-. exists []. by rewrite app_nil_r.
  - destruct (step x s) as [s1|] eqn:Hstep; [| done]. cbn in Hrun.
    destruct (step_invoked x s s1 Hstep) as (new1 & Hnew1 & Hlength1).
    destruct (IH s1 Hrun) as (new & Hnew & Hlength).
    exists (new1 ++ new). split.
    + by rewrite Hnew, Hnew1, <- app_assoc.
    + rewrite length_app, completions_cons, Hlength1, Hlength. done.
Qed.

(** ** Lifetime of a container *)

(** X8. From its construction to its destruction a container shows the
    engine this protocol: the handle is created, initialized with the view
    of the settings, then used by one call per member function, none of
    which releases it, and released last, once. *)
Theorem container_lifetime_protocol
    (settings : string_object) (ops : list Operation) s :
  let this := (Container_Container settings s).1 in
  let s1 := (Container_Container settings s).2 in
  Forall (λ o, receiver o = Some this ∧ is_destroy o = false) ops →
  ∃ cs : list Call,
    calls (Container_destroy this (fold_left (λ s o, operation_effect o s) ops s1))
    = calls s
      ++ [napa_container_create;
          napa_container_init (_handle this) (STD_STRING_TO_NAPA_STRING_REF settings)]
      ++ cs
      ++ [napa_container_release (_handle this)]
    ∧ length cs = length ops
    ∧ Forall (λ call, handle_of_call call = Some (_handle this)
                      ∧ is_release call = false) cs.
Proof.
  cbn zeta. rewrite Container_Container_unfold. cbn [fst snd _handle].
  set (handle := engine_handle napa_container_create (heap s) (engine s)).
  set (s1 := MkState _ _ _ _).
  intros Hops.
  assert (Hcalls : ∀ (ops : list Operation) t,
    Forall (λ o, receiver o = Some {| _handle := handle |} ∧ is_destroy o = false) ops →
    ∃ cs : list Call,
      calls (fold_left (λ s o, operation_effect o s) ops t) = calls t ++ cs
      ∧ length cs = length ops
      ∧ Forall (λ call, handle_of_call call = Some handle ∧ is_release call = false) cs).
  { clear. induction ops as [|o ops IH]; intros t Hops.
    - exists []. by rewrite app_nil_r.
    - apply Forall_cons in Hops as [[Ho Hno] Hops].
      destruct (operation_effect_calls o _ t Ho) as (call & Hcall & Hhandle & Hrelease).
      destruct (IH (operation_effect o t) Hops) as (cs & Hcs & Hlength & Hall).
      exists (call :: cs). cbn [fold_left length]. split_and!.
      + by rewrite Hcs, Hcall, <- app_assoc.
      + by rewrite Hlength.
      + constructor; [| done]. split; [done | congruence]. }
  destruct (Hcalls ops s1 Hops) as (cs & Hcs & Hlength & Hall).
  exists cs. split_and!; [| done | done].
  unfold Container_destroy, call_void, perform. cbn.
  rewrite Hcs. subst s1. cbn. by rewrite <- !app_assoc.
Qed.

(** ** The handler and its context pointer *)

(** X3. A completion handler is defined exactly when its context pointer
    designates a live completion context of the handler's own type. So a
    handler called a second time with the same pointer, or the other
    handler called with it, after the first call has returned, has no
    defined behaviour (the context is gone); nor has a handler called with
    the null pointer while nothing lives there. *)
Theorem completion_handler_needs_live_context (h : completion_handler)
    (response : handler_response h) context t :
  (is_Some (signal_completion h response context t)
   ↔ match h with
     | CompletionHandler_Load =>
         ∃ object, heap t !! context = Some (LoadContext object)
     | CompletionHandler_Run =>
         ∃ object, heap t !! context = Some (RunContext object)
     end)
  ∧ (∀ t' (h' : completion_handler) (response' : handler_response h'),
       signal_completion h response context t = Some t' →
       signal_completion h' response' context t' = None)
  ∧ (heap t !! NULL = None → signal_completion h response NULL t = None).
Proof.
  assert (Hdead : ∀ (h' : completion_handler) (response' : handler_response h') p t',
    heap t' !! p = None → signal_completion h' response' p t' = None).
  { intros h' response' p t' Hnone.
    destruct h'; cbn;
      unfold CompletionHandler_LoadCallback, CompletionHandler_RunCallback,
        CompletionHandler; by rewrite Hnone. }
  split_and!.
  - split.
    + intros [t' Hsome]. by apply signal_completion_Some in Hsome as [Hlive _].
    + destruct h; intros [object Hlive]; cbn;
        unfold CompletionHandler_LoadCallback, CompletionHandler_RunCallback,
          CompletionHandler;
        rewrite Hlive; by eexists.
  - intros t' h' response' Hsome. apply Hdead.
    apply signal_completion_Some in Hsome as (_ & -> & _).
    apply lookup_delete_eq.
  - apply Hdead.
Qed.

End Histories.

(** * The histories on the example engine *)

(** The example session runs to the end: the contexts of runs "A" and "C"
    are left, the callbacks "B" and "C" have been invoked. *)
Example example_steps_run :
  (t ← run_steps example_steps example_state;
   Some (map_to_list (heap t), invoked t))
  = Some ([ (2, RunContext (MkContext "A"%string)) ],
          [ invoke_load "B"%string NAPA_RESPONSE_LOAD_FAILURE;
            invoke_run "C"%string
              {| code := NAPA_RESPONSE_SUCCESS; error := [];
                 returnValue := ["3"%byte] |} ]).
Proof. vm_compute. done. Qed.

Lemma completions_in_any_order_witness :
  (λ c, (completion_context c, completed c))
    <$> [example_completion_B; example_completion_A]
    ≡ₚ zip (submitted_contexts [example_run_A; example_load_B] example_state)
         [example_run_A; example_load_B]
  ∧ ∃ t,
      signal_all [example_completion_B; example_completion_A]
        (submit_all [example_run_A; example_load_B] example_state)
      = Some t
      ∧ invoked t
        = invoked example_state
          ++ (completion_invocation <$> [example_completion_B; example_completion_A])
      ∧ calls t = calls (submit_all [example_run_A; example_load_B] example_state)
      ∧ heap t = heap example_state.
Proof.
  assert (Horder :
    (λ c, (completion_context c, completed c))
      <$> [example_completion_B; example_completion_A]
      ≡ₚ zip (submitted_contexts [example_run_A; example_load_B] example_state)
           [example_run_A; example_load_B]).
  { vm_compute. apply perm_swap. }
  split; [exact Horder |].
  exact (completions_in_any_order _ _ _ Horder).
Defined.


Lemma free_store_stays_in_order_witness :
  free_store_in_order example_state
  ∧ ∃ t, run_steps example_steps example_state = Some t ∧ free_store_in_order t.
Proof.
  assert (Hstart : free_store_in_order example_state).
  { split; [reflexivity | intros p views; cbn; by rewrite lookup_empty]. }
  split; [exact Hstart |].
  eexists. split; [vm_compute; reflexivity |].
  refine (free_store_stays_in_order example_steps example_state _ Hstart _).
  vm_compute. reflexivity.
Defined.

Lemma free_store_accounting_witness :
  ∃ t,
    run_steps example_steps example_state = Some t
    ∧ (size (heap t) + completions example_steps
       = size (heap example_state) + submissions example_steps)%nat.
Proof.
  eexists. split; [vm_compute; reflexivity |].
  refine (free_store_accounting example_steps example_state _ _).
  vm_compute. reflexivity.
Defined.

Lemma member_functions_pass_own_handle_witness :
  Forall (λ o, receiver o = Some example_container) example_member_functions
  ∧ ∃ cs : list Call,
      calls (fold_left (λ s o, operation_effect o s)
               example_member_functions example_state)
      = calls example_state ++ cs
      ∧ length cs = length example_member_functions
      ∧ Forall (λ call, handle_of_call call = Some (_handle example_container)) cs.
Proof.
  assert (Hown : Forall (λ o, receiver o = Some example_container)
                   example_member_functions).
  { repeat constructor. }
  split; [exact Hown |].
  exact (member_functions_pass_own_handle _ _ example_state Hown).
Defined.

Lemma container_lifetime_protocol_witness :
  Forall (λ o, receiver o = Some example_container ∧ is_destroy o = false)
    example_member_functions
  ∧ ∃ cs : list Call,
      calls (Container_destroy example_container
               (fold_left (λ s o, operation_effect o s) example_member_functions
                  (Container_Container example_settings example_state).2))
      = calls example_state
        ++ [napa_container_create;
            napa_container_init (_handle example_container)
              (STD_STRING_TO_NAPA_STRING_REF example_settings)]
        ++ cs
        ++ [napa_container_release (_handle example_container)]
      ∧ length cs = length example_member_functions
      ∧ Forall (λ call, handle_of_call call = Some (_handle example_container)
                        ∧ is_release call = false) cs.
Proof.
  assert (Hown : Forall (λ o, receiver o = Some example_container
                              ∧ is_destroy o = false) example_member_functions).
  { repeat constructor. }
  split; [exact Hown |].
  exact (container_lifetime_protocol example_settings example_member_functions
           example_state Hown).
Defined.

Lemma callbacks_invoked_only_by_completions_witness :
  ∃ t,
    run_steps example_steps example_state = Some t
    ∧ ∃ new : list Invocation,
        invoked t = invoked example_state ++ new
        ∧ length new = completions example_steps.
Proof.
  eexists. split; [vm_compute; reflexivity |].
  refine (callbacks_invoked_only_by_completions example_steps example_state _ _).
  vm_compute. reflexivity.
Defined.
